(** * robot_state_publisher: shallow embedding of src/robot_state_publisher.cpp

    The embedding follows [RobotStatePublisher] member by member:
    - [std::map<std::string, V>] is an association list kept in key order
      ([StdMap]); [find] and [insert] follow the C++ operations, and
      [insert] leaves an existing key untouched;
    - joint positions ([double]) and ROS time stamps are rationals [Q];
    - a KDL tree is a rose tree of [TreeElement]s; the forward kinematics of
      a segment ([KDL::Segment::pose]) is left to KDL and kept as a function
      into an abstract frame type;
    - the members of the publisher form a record [RSP], every member function
      is a state-passing function returning the new state and the trace of
      what it sends to the transform broadcasters and to the log;
    - [ros::Time::now()] is an oracle [clk : nat -> Q]: the [i]-th reading
      taken during a call is [clk i];
    - the two [boost::shared_mutex]es are lock states holding what other
      threads hold, and [try_to_lock] succeeds or not accordingly. *)

From Stdlib Require Import List String Ascii ZArith QArith Bool Lqa Lia.
Import ListNotations.
Open Scope string_scope.
Open Scope list_scope.
Set Warnings "-register-all".

(** ** [std::map] with string keys *)
Module StdMap.

Definition t (V : Type) := list (string * V).

Definition empty {V} : t V := [].

(** [std::map::find]: the entry stored under [k]. *)
Fixpoint find {V} (k : string) (m : t V) : option V :=
  match m with
  | [] => None
  | (k', v) :: m' => if String.eqb k k' then Some v else find k m'
  end.

(** Insertion at the ordered position of a key known to be absent. *)
Fixpoint ins {V} (k : string) (v : V) (m : t V) : t V :=
  match m with
  | [] => [(k, v)]
  | (k', v') :: m' =>
      match String.compare k k' with
      | Lt => (k, v) :: m
      | Eq => m
      | Gt => (k', v') :: ins k v m'
      end
  end.

(** [std::map::insert(make_pair(k, v))]: no effect when [k] is present. *)
Definition insert {V} (k : string) (v : V) (m : t V) : t V :=
  match find k m with
  | Some _ => m
  | None => ins k v m
  end.

Definition keys {V} (m : t V) : list string := map fst m.

Lemma find_ins {V} (k k' : string) (v : V) (m : t V) :
  find k' m = None ->
  find k (ins k' v m) = if String.eqb k k' then Some v else find k m.
Proof.
  induction m as [|[k1 v1] m IH]; intros Hn; simpl.
  - reflexivity.
  - simpl in Hn. destruct (String.eqb_spec k' k1) as [->|Hne]; [discriminate|].
    destruct (String.compare k' k1) eqn:Hc.
    + apply String.compare_eq_iff in Hc. contradiction.
    + simpl. reflexivity.
    + simpl. rewrite (IH Hn).
      destruct (String.eqb_spec k k1) as [->|]; [|reflexivity].
      destruct (String.eqb_spec k1 k') as [->|]; [contradiction|reflexivity].
Qed.

Lemma find_insert {V} (k k' : string) (v : V) (m : t V) :
  find k (insert k' v m) =
  match find k' m with
  | Some _ => find k m
  | None => if String.eqb k k' then Some v else find k m
  end.
Proof.
  unfold insert. destruct (find k' m) eqn:E; [reflexivity|].
  apply find_ins; exact E.
Qed.

Lemma find_insert_same {V} (k : string) (v : V) (m : t V) :
  find k (insert k v m) = match find k m with Some w => Some w | None => Some v end.
Proof.
  rewrite find_insert. destruct (find k m); [reflexivity|].
  rewrite String.eqb_refl. reflexivity.
Qed.

Lemma find_insert_other {V} (k k' : string) (v : V) (m : t V) :
  k <> k' -> find k (insert k' v m) = find k m.
Proof.
  intros Hne. rewrite find_insert. destruct (find k' m); [reflexivity|].
  apply String.eqb_neq in Hne. rewrite Hne. reflexivity.
Qed.

Lemma find_in_keys {V} (k : string) (m : t V) :
  In k (keys m) <-> find k m <> None.
Proof.
  induction m as [|[k1 v1] m IH]; simpl.
  - split; [intros []|congruence].
  - destruct (String.eqb_spec k k1) as [->|Hne].
    + split; [congruence|auto].
    + rewrite <- IH. split; [intros [->|H]; [congruence|exact H]|auto].
Qed.

Lemma keys_ins {V} (k x : string) (v : V) (m : t V) :
  find k m = None -> In x (keys (ins k v m)) <-> x = k \/ In x (keys m).
Proof.
  intros Hn. rewrite !find_in_keys, find_ins by exact Hn.
  destruct (String.eqb_spec x k) as [->|Hne].
  - rewrite Hn. split; [auto|congruence].
  - split; [auto|intros [H|H]; [contradiction|exact H]].
Qed.

Lemma nodup_ins {V} (k : string) (v : V) (m : t V) :
  find k m = None -> NoDup (keys m) -> NoDup (keys (ins k v m)).
Proof.
  induction m as [|[k1 v1] m IH]; intros Hn Hd; simpl.
  - constructor; [intros []|constructor].
  - simpl in Hn. destruct (String.eqb_spec k k1) as [->|Hne]; [discriminate|].
    inversion Hd as [|? ? Hnin Hd']; subst.
    destruct (String.compare k k1) eqn:Hc.
    + exact Hd.
    + unfold keys; simpl. constructor; [|exact Hd].
      intros [H|H]; [congruence|].
      apply find_in_keys in H. contradiction.
    + simpl. constructor; [|apply IH; assumption].
      rewrite keys_ins by exact Hn. intros [H|H]; [congruence|contradiction].
Qed.

Lemma nodup_insert {V} (k : string) (v : V) (m : t V) :
  NoDup (keys m) -> NoDup (keys (insert k v m)).
Proof.
  unfold insert. destruct (find k m) eqn:E; [auto|]. apply nodup_ins; exact E.
Qed.

End StdMap.

(** ** KDL: joints, segments and trees *)

(** [KDL::Joint::JointType], in its namespace so that [KDL.None] does not
    hide [option]'s [None]. *)
Module KDL.
Inductive JointType :=
| RotAxis | RotX | RotY | RotZ | TransAxis | TransX | TransY | TransZ | None.

Definition JointType_beq (a b : JointType) : bool :=
  match a, b with
  | RotAxis, RotAxis | RotX, RotX | RotY, RotY | RotZ, RotZ
  | TransAxis, TransAxis | TransX, TransX | TransY, TransY | TransZ, TransZ
  | None, None => true
  | _, _ => false
  end.
End KDL.

Section Robot.

(** The pose type of [KDL::Frame]: computed by KDL, not by this package. *)
Context {Frame : Type}.

(** [KDL::Joint]: its name and its type. *)
Record Joint := mkJoint { joint_name : string; joint_type : KDL.JointType }.

(** [KDL::Segment]: name, joint and [pose(q)]. *)
Record Segment := mkSegment {
  seg_name : string;
  seg_joint : Joint;
  seg_pose : Q -> Frame
}.

(** [KDL::TreeElement]: a segment and its children. *)
Inductive TreeElement := mkTreeElement (s : Segment) (children : list TreeElement).

Definition GetTreeElementSegment (e : TreeElement) : Segment :=
  match e with mkTreeElement s _ => s end.

Definition GetTreeElementChildren (e : TreeElement) : list TreeElement :=
  match e with mkTreeElement _ cs => cs end.

(** ** urdf::Model *)

(** [urdf::Joint] types. *)
Inductive UrdfJointType :=
| UNKNOWN | REVOLUTE | CONTINUOUS | PRISMATIC | FLOATING | PLANAR | FIXED.

(** [urdf::JointMimic]. *)
Record JointMimic := mkJointMimic {
  mimic_joint_name : string;
  multiplier : Q;
  offset : Q
}.

(** [urdf::Joint]: the fields this package reads. *)
Record UrdfJoint := mkUrdfJoint {
  utype : UrdfJointType;
  mimic : option JointMimic
}.

(** [urdf::Model]: its [joints_] map. *)
Record Model := mkModel { joints_ : StdMap.t UrdfJoint }.

(** [urdf::Model::getJoint]: the joint or a null pointer. *)
Definition getJoint (model : Model) (name : string) : option UrdfJoint :=
  StdMap.find name (joints_ model).

(** The test [model_.getJoint(n) && model_.getJoint(n)->type == FLOATING]. *)
Definition is_floating (model : Model) (name : string) : bool :=
  match getJoint model name with
  | Some j => match utype j with FLOATING => true | _ => false end
  | None => false
  end.

(** ** The segment tables *)

(** [SegmentPair(segment, root, tip)]. *)
Record SegmentPair := mkSegmentPair {
  segment : Segment;
  root : string;
  tip : string
}.

(** The members [segments_] (moving) and [segments_fixed_]. *)
Record Tables := mkTables {
  segments_ : StdMap.t SegmentPair;
  segments_fixed_ : StdMap.t SegmentPair
}.

Definition empty_tables : Tables := mkTables StdMap.empty StdMap.empty.

(** One iteration of the loop of [addChildren]: the edge from the segment
    named [root] to the child element [c]. *)
Definition addSegment (model : Model) (root : string) (c : TreeElement) (tb : Tables)
  : Tables :=
  let child := GetTreeElementSegment c in
  let s := mkSegmentPair child root (seg_name child) in
  let jn := joint_name (seg_joint child) in
  if KDL.JointType_beq (joint_type (seg_joint child)) KDL.None then
    if is_floating model jn then tb
    else mkTables (segments_ tb) (StdMap.insert jn s (segments_fixed_ tb))
  else mkTables (StdMap.insert jn s (segments_ tb)) (segments_fixed_ tb).

(** [RobotStatePublisher::addChildren]. *)
Fixpoint addChildren (model : Model) (e : TreeElement) (tb : Tables) : Tables :=
  let root := seg_name (GetTreeElementSegment e) in
  (fix loop (cs : list TreeElement) (tb : Tables) : Tables :=
     match cs with
     | [] => tb
     | c :: cs' => loop cs' (addChildren model c (addSegment model root c tb))
     end) (GetTreeElementChildren e) tb.

(** ** Mimic joints *)

(** [MimicMap]: [std::map<std::string, urdf::JointMimicSharedPtr>]. *)
Definition MimicMap := StdMap.t JointMimic.

(** The loop of [RobotStatePublisher::setJointMimicMap] over [model.joints_],
    inserting into the map [mimic_] that it has just cleared. *)
Definition setJointMimicMap (model : Model) : MimicMap :=
  fold_left
    (fun mm (kj : string * UrdfJoint) =>
       let (name, j) := kj in
       match mimic j with
       | Some m => StdMap.insert name m mm
       | None => mm
       end)
    (joints_ model) StdMap.empty.

(** A [boost::shared_mutex] as seen by a thread that tries to take it: what
    the other threads hold. *)
Inductive LockState := Unlocked | SharedHeld (readers : positive) | ExclusiveHeld.

(** [boost::unique_lock<..>(mtx, boost::try_to_lock).owns_lock()]. *)
Definition try_lock (l : LockState) : bool :=
  match l with Unlocked => true | _ => false end.

(** [boost::shared_lock<..>(mtx, boost::try_to_lock).owns_lock()]. *)
Definition try_lock_shared (l : LockState) : bool :=
  match l with ExclusiveHeld => false | _ => true end.

(** The loop of [getJointMimicPositions] over the entries of [mimic_]. *)
Definition mimic_loop (mm : MimicMap) (joint_positions : StdMap.t Q) : StdMap.t Q :=
  fold_left
    (fun jp (e : string * JointMimic) =>
       let (name, m) := e in
       match StdMap.find (mimic_joint_name m) jp with
       | Some p => StdMap.insert name (p * multiplier m + offset m) jp
       | None => jp
       end)
    mm joint_positions.

(** [RobotStatePublisher::getJointMimicPositions]: the returned flag and the
    updated [joint_positions] (a reference argument). *)
Definition getJointMimicPositions (mimic_mtx_ : LockState) (mm : MimicMap)
  (joint_positions : StdMap.t Q) : bool * StdMap.t Q :=
  if negb (try_lock_shared mimic_mtx_) then (false, joint_positions)
  else (true, mimic_loop mm joint_positions).

(** ** Published transforms *)

(** [stripSlash]. *)
Definition stripSlash (s : string) : string :=
  match s with
  | String "/" rest => rest
  | _ => s
  end.

(** [geometry_msgs::TransformStamped]; the transform is the KDL frame that
    [tf2::kdlToTransform] converts. *)
Record TransformStamped := mkTransformStamped {
  stamp : Q;
  frame_id : string;
  child_frame_id : string;
  transform : Frame
}.

(** The two broadcasters: [tf_broadcaster_] and [static_tf_broadcaster_]. *)
Inductive Sink := Dynamic | Static.

(** What the publisher does that can be observed: a [sendTransform] call on a
    broadcaster, or a warning printed by [ROS_WARN_THROTTLE]. *)
Inductive Event :=
| Send (sink : Sink) (tfs : list TransformStamped)
| Warn (joint : string).

(** The members of [RobotStatePublisher] (and of its base [RobotKDLTree]) that
    the functions of this file read or write.  [throttle_last_hit] is the
    function-local [static] of the [ROS_WARN_THROTTLE] in [publishTransforms]. *)
Record RSP := mkRSP {
  initialized_ : bool;
  model_ : Model;
  tables_ : Tables;
  mimic_ : MimicMap;
  mimic_mtx_ : LockState;
  urdf_changed_ : bool;
  m_swapMutex : LockState;
  throttle_last_hit : Q
}.

Definition set_tables (st : RSP) (tb : Tables) : RSP :=
  mkRSP (initialized_ st) (model_ st) tb (mimic_ st) (mimic_mtx_ st)
    (urdf_changed_ st) (m_swapMutex st) (throttle_last_hit st).

Definition set_mimic (st : RSP) (mm : MimicMap) : RSP :=
  mkRSP (initialized_ st) (model_ st) (tables_ st) mm (mimic_mtx_ st)
    (urdf_changed_ st) (m_swapMutex st) (throttle_last_hit st).

Definition set_urdf_changed (st : RSP) (b : bool) : RSP :=
  mkRSP (initialized_ st) (model_ st) (tables_ st) (mimic_ st) (mimic_mtx_ st)
    b (m_swapMutex st) (throttle_last_hit st).

Definition set_last_hit (st : RSP) (t : Q) : RSP :=
  mkRSP (initialized_ st) (model_ st) (tables_ st) (mimic_ st) (mimic_mtx_ st)
    (urdf_changed_ st) (m_swapMutex st) t.

(** The condition of rosconsole's [ROS_WARN_THROTTLE(period, ...)]
    ([ROSCONSOLE_THROTTLE_CHECK]): [last + period <= now || now < last]. *)
Definition throttle_check (now last period : Q) : bool :=
  Qle_bool (last + period) now || negb (Qle_bool last now).

(** The body of the loop of [publishTransforms] for one entry of
    [joint_positions]: [now] is the reading of [ros::Time::now()] that the
    throttled warning takes.  Returns the new last hit of the throttle, the
    warnings printed, and the transforms appended to [tf_transforms]. *)
Definition publish_entry (segs : StdMap.t SegmentPair) (time now : Q)
  (last : Q) (jnt : string * Q) : Q * list Event * list TransformStamped :=
  let (name, pos) := jnt in
  match StdMap.find name segs with
  | Some sp =>
      (last, [],
       [mkTransformStamped time (stripSlash (root sp)) (stripSlash (tip sp))
          (seg_pose (segment sp) pos)])
  | None =>
      if throttle_check now last 10 then (now, [Warn name], []) else (last, [], [])
  end.

(** The loop of [publishTransforms]; [clk i] is the clock reading taken at the
    [i]-th entry. *)
Fixpoint publish_loop (segs : StdMap.t SegmentPair) (time : Q) (clk : nat -> Q)
  (i : nat) (last : Q) (jps : list (string * Q))
  : Q * list Event * list TransformStamped :=
  match jps with
  | [] => (last, [], [])
  | jnt :: jps' =>
      let '(last1, w1, t1) := publish_entry segs time (clk i) last jnt in
      let '(last2, w2, t2) := publish_loop segs time clk (S i) last1 jps' in
      (last2, w1 ++ w2, t1 ++ t2)
  end.

(** [RobotStatePublisher::publishTransforms]. *)
Definition publishTransforms (st : RSP) (joint_positions : StdMap.t Q) (time : Q)
  (clk : nat -> Q) : RSP * list Event :=
  if negb (try_lock (m_swapMutex st)) then (st, [])
  else
    let '(last, warns, tfs) :=
      publish_loop (segments_ (tables_ st)) time clk 0 (throttle_last_hit st)
        joint_positions in
    (set_last_hit st last, warns ++ [Send Dynamic tfs]).

(** The transform of the [i]-th fixed segment in [publishFixedTransforms]. *)
Definition fixed_transform (use_tf_static : bool) (now : Q) (sp : SegmentPair)
  : TransformStamped :=
  mkTransformStamped (if use_tf_static then now else now + (1 # 2))
    (stripSlash (root sp)) (stripSlash (tip sp)) (seg_pose (segment sp) 0).

Fixpoint fixed_loop (use_tf_static : bool) (clk : nat -> Q) (i : nat)
  (segs : StdMap.t SegmentPair) : list TransformStamped :=
  match segs with
  | [] => []
  | (_, sp) :: segs' =>
      fixed_transform use_tf_static (clk i) sp :: fixed_loop use_tf_static clk (S i) segs'
  end.

(** [RobotStatePublisher::publishFixedTransforms]. *)
Definition publishFixedTransforms (st : RSP) (use_tf_static : bool) (clk : nat -> Q)
  : RSP * list Event :=
  if negb (try_lock (m_swapMutex st)) then (st, [])
  else
    let tfs := fixed_loop use_tf_static clk 0 (segments_fixed_ (tables_ st)) in
    (st, [Send (if use_tf_static then Static else Dynamic) tfs]).

(** [RobotStatePublisher::onURDFSwap].  [RobotKDLTree::onURDFSwap] (not in
    this file) replaces the KDL tree: [tree] is what [getTree()] returns
    afterwards, [urdf_ptr] what [getUrdfPtr()] returns.  The tree walk reads
    the member [model_]. *)
Definition onURDFSwap (st : RSP) (tree : TreeElement) (urdf_ptr : option Model) : RSP :=
  if negb (initialized_ st) then st
  else
    let st1 := set_tables st (addChildren (model_ st) tree empty_tables) in
    let st2 := match urdf_ptr with
               | Some m => set_mimic st1 (setJointMimicMap m)
               | None => st1
               end in
    set_urdf_changed st2 true.

(** [RobotStatePublisher::setRobotDescriptionIfChanged].  The call
    [setRobotDescription()] of [RobotKDLTree] writes the description to the
    parameter server and touches none of the members modelled here. *)
Definition setRobotDescriptionIfChanged (st : RSP) (clk : nat -> Q) : RSP * list Event :=
  if urdf_changed_ st then publishFixedTransforms (set_urdf_changed st false) true clk
  else (st, []).

Definition set_initialized (st : RSP) (b : bool) : RSP :=
  mkRSP b (model_ st) (tables_ st) (mimic_ st) (mimic_mtx_ st)
    (urdf_changed_ st) (m_swapMutex st) (throttle_last_hit st).

(** The constructor [RobotStatePublisher(model)]: [initialized_(false)],
    [model_(model)], then [setJointMimicMap(model)]; the segment maps start
    empty.  [urdf_changed0] is the initial value of [urdf_changed_], which the
    class declaration (not this file) sets.  No other thread holds a lock yet,
    and the throttle's [static double] last hit starts at [0.0]. *)
Definition RobotStatePublisher (model : Model) (urdf_changed0 : bool) : RSP :=
  mkRSP false model empty_tables (setJointMimicMap model) Unlocked urdf_changed0
    Unlocked 0.

(** [RobotStatePublisher::init].  [kdl_tree] is the outcome of
    [RobotKDLTree::init()] (not in this file): [Some t] when it succeeds and
    [getTree()] is [t], [None] when it fails.  The segments are added to the
    maps as they are, without clearing them. *)
Definition init (st : RSP) (kdl_tree : option TreeElement) : RSP * bool :=
  let st' := match kdl_tree with
             | Some t => set_initialized (set_tables st (addChildren (model_ st) t (tables_ st))) true
             | None => st
             end in
  (st', initialized_ st').

End Robot.

(** ** The tree walk as a list of edges *)
Section TreeWalk.

Context {Frame : Type}.

(** Induction over KDL trees, with a hypothesis for every child. *)
Section TreeElementInd.
Variable P : @TreeElement Frame -> Prop.
Hypothesis Hnode : forall s cs, Forall P cs -> P (mkTreeElement s cs).

Fixpoint TreeElement_ind' (e : TreeElement) : P e :=
  match e with
  | mkTreeElement s cs =>
      Hnode s cs
        ((fix go (cs : list TreeElement) : Forall P cs :=
            match cs with
            | [] => Forall_nil P
            | c :: cs' => Forall_cons c (TreeElement_ind' c) (go cs')
            end) cs)
  end.
End TreeElementInd.

(** The parent-to-child edges in the order [addChildren] visits them: the
    parent's segment name and the child element. *)
Fixpoint edges (e : @TreeElement Frame) : list (string * TreeElement) :=
  let r := seg_name (GetTreeElementSegment e) in
  (fix loop (cs : list TreeElement) :=
     match cs with
     | [] => []
     | c :: cs' => ((r, c) :: edges c) ++ loop cs'
     end) (GetTreeElementChildren e).

Definition addEdge (model : Model) (tb : @Tables Frame) (rc : string * TreeElement)
  : Tables :=
  addSegment model (fst rc) (snd rc) tb.

Definition edge_name (rc : string * @TreeElement Frame) : string :=
  joint_name (seg_joint (GetTreeElementSegment (snd rc))).

Definition edge_pair (rc : string * @TreeElement Frame) : SegmentPair :=
  let child := GetTreeElementSegment (snd rc) in
  mkSegmentPair child (fst rc) (seg_name child).

Definition edge_type (rc : string * @TreeElement Frame) : KDL.JointType :=
  joint_type (seg_joint (GetTreeElementSegment (snd rc))).

(** The first edge named [j] that satisfies [p]. *)
Fixpoint first_edge (p : string * TreeElement -> bool) (j : string)
  (es : list (string * @TreeElement Frame)) : option SegmentPair :=
  match es with
  | [] => None
  | e :: es' => if String.eqb j (edge_name e) && p e then Some (edge_pair e)
                else first_edge p j es'
  end.

Definition moving_edge (e : string * @TreeElement Frame) : bool :=
  negb (KDL.JointType_beq (edge_type e) KDL.None).

Definition fixed_edge (model : Model) (e : string * @TreeElement Frame) : bool :=
  KDL.JointType_beq (edge_type e) KDL.None && negb (is_floating model (edge_name e)).

Lemma addChildren_edges (model : Model) (e : TreeElement) (tb : Tables) :
  addChildren model e tb = fold_left (addEdge model) (edges e) tb.
Proof.
  revert tb. induction e as [s cs HF] using TreeElement_ind'. simpl.
  induction HF as [|c cs Hc HF IH]; intros tb; simpl; [reflexivity|].
  rewrite fold_left_app. simpl. rewrite Hc. apply IH.
Qed.

Lemma JointType_beq_spec (a b : KDL.JointType) : KDL.JointType_beq a b = true <-> a = b.
Proof. destruct a, b; simpl; split; congruence. Qed.

Lemma fold_find_moving (model : Model) es tb j :
  StdMap.find j (segments_ (fold_left (addEdge model) es tb)) =
  match StdMap.find j (segments_ tb) with
  | Some x => Some x
  | None => first_edge moving_edge j es
  end.
Proof.
  revert tb. induction es as [|e es IH]; intros tb; simpl.
  - destruct (StdMap.find j (segments_ tb)); reflexivity.
  - rewrite IH. unfold addEdge, addSegment, moving_edge.
    fold (edge_type e) (edge_name e).
    destruct (KDL.JointType_beq (edge_type e) KDL.None) eqn:Ht; simpl.
    + rewrite andb_false_r. destruct (is_floating model (edge_name e)); reflexivity.
    + rewrite andb_true_r. rewrite StdMap.find_insert.
      destruct (String.eqb_spec j (edge_name e)) as [->|Hne].
      * destruct (StdMap.find (edge_name e) (segments_ tb)); reflexivity.
      * destruct (StdMap.find (edge_name e) (segments_ tb)); reflexivity.
Qed.

Lemma fold_find_fixed (model : Model) es tb j :
  StdMap.find j (segments_fixed_ (fold_left (addEdge model) es tb)) =
  match StdMap.find j (segments_fixed_ tb) with
  | Some x => Some x
  | None => first_edge (fixed_edge model) j es
  end.
Proof.
  revert tb. induction es as [|e es IH]; intros tb; simpl.
  - destruct (StdMap.find j (segments_fixed_ tb)); reflexivity.
  - rewrite IH. unfold addEdge, addSegment, fixed_edge.
    fold (edge_type e) (edge_name e).
    destruct (KDL.JointType_beq (edge_type e) KDL.None) eqn:Ht; simpl.
    + destruct (is_floating model (edge_name e)); simpl.
      * rewrite andb_false_r. reflexivity.
      * rewrite andb_true_r. rewrite StdMap.find_insert.
        destruct (String.eqb_spec j (edge_name e)) as [->|Hne];
          destruct (StdMap.find (edge_name e) (segments_fixed_ tb)); reflexivity.
    + rewrite andb_false_r. reflexivity.
Qed.

Lemma fold_nodup (model : Model) es tb :
  NoDup (StdMap.keys (segments_ tb)) -> NoDup (StdMap.keys (segments_fixed_ tb)) ->
  NoDup (StdMap.keys (segments_ (fold_left (addEdge model) es tb))) /\
  NoDup (StdMap.keys (segments_fixed_ (fold_left (addEdge model) es tb))).
Proof.
  revert tb. induction es as [|e es IH]; intros tb H1 H2; simpl; [auto|].
  apply IH; unfold addEdge, addSegment;
    destruct (KDL.JointType_beq _ KDL.None); try destruct (is_floating _ _);
    simpl; try apply StdMap.nodup_insert; assumption.
Qed.

Lemma first_edge_absent p j (es : list (string * @TreeElement Frame)) :
  ~ In j (map edge_name es) -> first_edge p j es = None.
Proof.
  induction es as [|e es IH]; simpl; intros Hn; [reflexivity|].
  destruct (String.eqb_spec j (edge_name e)) as [->|]; [tauto|].
  simpl. apply IH. tauto.
Qed.

Lemma first_edge_unique p (es : list (string * @TreeElement Frame)) e :
  NoDup (map edge_name es) -> In e es ->
  first_edge p (edge_name e) es = if p e then Some (edge_pair e) else None.
Proof.
  induction es as [|e0 es IH]; simpl; intros Hd Hin; [contradiction|].
  inversion Hd as [|? ? Hn Hd']; subst.
  destruct Hin as [->|Hin].
  - rewrite String.eqb_refl. simpl. destruct (p e); [reflexivity|].
    apply first_edge_absent. exact Hn.
  - destruct (String.eqb_spec (edge_name e) (edge_name e0)) as [Heq|Hne].
    + exfalso. apply Hn. rewrite <- Heq. apply in_map. exact Hin.
    + simpl. apply IH; assumption.
Qed.

End TreeWalk.

Lemma first_edge_none {Frame : Type} p j (es : list (string * @TreeElement Frame)) :
  (forall e, In e es -> edge_name e = j -> p e = false) -> first_edge p j es = None.
Proof.
  induction es as [|e es IH]; simpl; intros H; [reflexivity|].
  destruct (String.eqb_spec j (edge_name e)) as [Heq|]; simpl.
  - rewrite (H e (or_introl eq_refl) (eq_sym Heq)). apply IH; auto.
  - apply IH; auto.
Qed.

(** ** Lemmas on the mimic code *)

Lemma mimic_loop_keep (l : MimicMap) (jp : StdMap.t Q) (x : string) (v : Q) :
  StdMap.find x jp = Some v -> StdMap.find x (mimic_loop l jp) = Some v.
Proof.
  unfold mimic_loop. revert jp. induction l as [|[d m] l IH]; intros jp H; simpl; [exact H|].
  apply IH. destruct (StdMap.find (mimic_joint_name m) jp); [|exact H].
  rewrite StdMap.find_insert. destruct (StdMap.find d jp) eqn:Ed; [exact H|].
  destruct (String.eqb_spec x d) as [->|]; [congruence|exact H].
Qed.

Lemma mimic_loop_other (l : MimicMap) (jp : StdMap.t Q) (x : string) :
  ~ In x (StdMap.keys l) -> StdMap.find x (mimic_loop l jp) = StdMap.find x jp.
Proof.
  unfold mimic_loop. revert jp. induction l as [|[d m] l IH]; intros jp H; simpl; [reflexivity|].
  simpl in H. rewrite IH by tauto.
  destruct (StdMap.find (mimic_joint_name m) jp); [|reflexivity].
  apply StdMap.find_insert_other. intros ->. tauto.
Qed.

Lemma mimic_loop_app (l1 l2 : MimicMap) (jp : StdMap.t Q) :
  mimic_loop (l1 ++ l2) jp = mimic_loop l2 (mimic_loop l1 jp).
Proof. unfold mimic_loop. apply fold_left_app. Qed.

Lemma mimic_loop_cons d m (l : MimicMap) (jp : StdMap.t Q) :
  mimic_loop ((d, m) :: l) jp =
  mimic_loop l (match StdMap.find (mimic_joint_name m) jp with
                | Some p => StdMap.insert d (p * multiplier m + offset m) jp
                | None => jp
                end).
Proof. reflexivity. Qed.

Lemma find_split {V} (k : string) (v : V) (m : StdMap.t V) :
  StdMap.find k m = Some v ->
  exists l1 l2, m = l1 ++ (k, v) :: l2 /\ ~ In k (StdMap.keys l1).
Proof.
  induction m as [|[k1 v1] m IH]; simpl; intros H; [discriminate|].
  destruct (String.eqb_spec k k1) as [->|Hne].
  - injection H as <-. exists [], m. split; [reflexivity|intros []].
  - destruct (IH H) as (l1 & l2 & -> & Hn).
    exists ((k1, v1) :: l1), l2. split; [reflexivity|].
    simpl. intros [->|Hin]; [congruence|tauto].
Qed.

(** The value derived for a dependent joint [d] whose entry is [m], when the
    source has position [p] and [d] has none yet. *)
Lemma mimic_loop_derived (mm : MimicMap) (jp : StdMap.t Q) d m p :
  StdMap.find d mm = Some m ->
  StdMap.find (mimic_joint_name m) jp = Some p ->
  StdMap.find d jp = None ->
  StdMap.find d (mimic_loop mm jp) = Some (p * multiplier m + offset m).
Proof.
  intros Hm Hp Hd. destruct (find_split d m mm Hm) as (l1 & l2 & -> & Hn).
  rewrite mimic_loop_app, mimic_loop_cons. apply mimic_loop_keep.
  rewrite (mimic_loop_keep l1 jp _ _ Hp).
  rewrite StdMap.find_insert_same. rewrite (mimic_loop_other l1 jp d Hn), Hd. reflexivity.
Qed.

(** An entry reads the batch as updated by the entries before it: [d] gets
    the value derived from its source's position at that point, when [d] has
    none there. *)
Lemma mimic_loop_inplace (l1 l2 : MimicMap) (jp : StdMap.t Q) d m p :
  StdMap.find (mimic_joint_name m) (mimic_loop l1 jp) = Some p ->
  StdMap.find d (mimic_loop l1 jp) = None ->
  StdMap.find d (mimic_loop (l1 ++ (d, m) :: l2) jp) = Some (p * multiplier m + offset m).
Proof.
  intros Hp Hd. rewrite mimic_loop_app, mimic_loop_cons, Hp. apply mimic_loop_keep.
  rewrite StdMap.find_insert_same, Hd. reflexivity.
Qed.

Lemma setJointMimicMap_fold (l : StdMap.t UrdfJoint) (acc : MimicMap) d :
  NoDup (StdMap.keys l) ->
  StdMap.find d
    (fold_left
       (fun mm (kj : string * UrdfJoint) =>
          let (name, j) := kj in
          match mimic j with
          | Some m => StdMap.insert name m mm
          | None => mm
          end) l acc) =
  match StdMap.find d acc with
  | Some x => Some x
  | None => match StdMap.find d l with Some j => mimic j | None => None end
  end.
Proof.
  revert acc. induction l as [|[k j] l IH]; intros acc Hd; simpl.
  - destruct (StdMap.find d acc); reflexivity.
  - inversion Hd as [|? ? Hn Hd']; subst. rewrite (IH _ Hd').
    destruct (mimic j) as [m|] eqn:Ej.
    + rewrite StdMap.find_insert.
      destruct (String.eqb_spec d k) as [->|Hne];
        destruct (StdMap.find k acc) eqn:Ek; try rewrite Ek; try rewrite Ej;
        try reflexivity; destruct (StdMap.find d acc); reflexivity.
    + destruct (String.eqb_spec d k) as [->|Hne]; [|reflexivity].
      destruct (StdMap.find k acc); [reflexivity|].
      assert (Hl : StdMap.find k l = None).
      { destruct (StdMap.find k l) eqn:E; [|reflexivity].
        exfalso. apply Hn. apply StdMap.find_in_keys. congruence. }
      rewrite Hl, Ej. reflexivity.
Qed.

(** ** Lemmas on the publish loops *)

(** What one entry of [joint_positions] adds to [tf_transforms]. *)
Definition matched {Frame : Type} (segs : StdMap.t (@SegmentPair Frame)) (time : Q)
  (jnt : string * Q) : list TransformStamped :=
  match StdMap.find (fst jnt) segs with
  | Some sp => [mkTransformStamped time (stripSlash (root sp)) (stripSlash (tip sp))
                  (seg_pose (segment sp) (snd jnt))]
  | None => []
  end.

Lemma publish_loop_spec {Frame : Type} (segs : StdMap.t (@SegmentPair Frame)) time clk
  jps : forall i last,
  snd (publish_loop segs time clk i last jps) = flat_map (matched segs time) jps /\
  (forall ev, In ev (snd (fst (publish_loop segs time clk i last jps))) ->
     exists w, ev = Warn w /\ In w (map fst jps) /\ StdMap.find w segs = None).
Proof.
  induction jps as [|[n q] jps IH]; intros i last; simpl; [split; [reflexivity|intros _ []]|].
  unfold publish_entry, matched at 1. simpl.
  destruct (StdMap.find n segs) as [sp|] eqn:Ef.
  - destruct (publish_loop segs time clk (S i) last jps) as [[l2 w2] t2] eqn:E.
    specialize (IH (S i) last). rewrite E in IH. destruct IH as [IH1 IH2].
    simpl in *. split; [congruence|].
    intros ev Hin. destruct (IH2 ev Hin) as (w & -> & H1 & H2). eauto.
  - destruct (throttle_check (clk i) last 10).
    + destruct (publish_loop segs time clk (S i) (clk i) jps) as [[l2 w2] t2] eqn:E.
      specialize (IH (S i) (clk i)). rewrite E in IH. destruct IH as [IH1 IH2].
      simpl in *. split; [exact IH1|].
      intros ev [<-|Hin]; [eauto|].
      destruct (IH2 ev Hin) as (w & -> & H1 & H2). eauto.
    + destruct (publish_loop segs time clk (S i) last jps) as [[l2 w2] t2] eqn:E.
      specialize (IH (S i) last). rewrite E in IH. destruct IH as [IH1 IH2].
      simpl in *. split; [exact IH1|].
      intros ev Hin. destruct (IH2 ev Hin) as (w & -> & H1 & H2). eauto.
Qed.

Lemma throttle_quiet (t last : Q) :
  last <= t -> t < last + 10 -> throttle_check t last 10 = false.
Proof.
  intros H1 H2. unfold throttle_check.
  destruct (Qle_bool (last + 10) t) eqn:E1.
  - apply Qle_bool_iff in E1. lra.
  - destruct (Qle_bool last t) eqn:E2; [reflexivity|].
    apply Qle_bool_iff in H1. congruence.
Qed.

Lemma publish_loop_quiet {Frame : Type} (segs : StdMap.t (@SegmentPair Frame)) time clk t
  jps : forall i last,
  (forall k, clk k = t) -> last <= t -> t < last + 10 ->
  fst (publish_loop segs time clk i last jps) = (last, []).
Proof.
  induction jps as [|[n q] jps IH]; intros i last Hc H1 H2; simpl; [reflexivity|].
  unfold publish_entry.
  destruct (StdMap.find n segs) as [sp|].
  - specialize (IH (S i) last Hc H1 H2).
    destruct (publish_loop segs time clk (S i) last jps) as [[l2 w2] t2].
    simpl in *. congruence.
  - rewrite Hc, (throttle_quiet t last H1 H2).
    specialize (IH (S i) last Hc H1 H2).
    destruct (publish_loop segs time clk (S i) last jps) as [[l2 w2] t2].
    simpl in *. congruence.
Qed.

Lemma clk_mono (clk : nat -> Q) :
  (forall k, clk k <= clk (S k)) -> forall i j, (i <= j)%nat -> clk i <= clk j.
Proof.
  intros Hm i j Hij. induction Hij as [|j Hij IH]; [apply Qle_refl|].
  apply (Qle_trans _ _ _ IH (Hm j)).
Qed.

(** No warning while every clock reading of the loop lies in
    [[last, last + 10)]. *)
Lemma publish_loop_quiet_win {Frame : Type} (segs : StdMap.t (@SegmentPair Frame)) time clk
  jps : forall i last,
  (forall k, (i <= k < i + List.length jps)%nat -> last <= clk k /\ clk k < last + 10) ->
  fst (publish_loop segs time clk i last jps) = (last, []).
Proof.
  induction jps as [|[n q] jps IH]; intros i last Hw; simpl; [reflexivity|].
  simpl in Hw.
  assert (IH' := IH (S i) last ltac:(intros k Hk; apply Hw; lia)).
  unfold publish_entry.
  destruct (StdMap.find n segs) as [sp|].
  - destruct (publish_loop segs time clk (S i) last jps) as [[l2 w2] t2].
    simpl in *. congruence.
  - destruct (Hw i ltac:(lia)) as [H1 H2]. rewrite (throttle_quiet _ _ H1 H2).
    destruct (publish_loop segs time clk (S i) last jps) as [[l2 w2] t2].
    simpl in *. congruence.
Qed.

(** With a clock that never goes back, the loop prints at most one warning
    while its clock readings stay within 10 s of the first one, the last
    warning being at or before that first reading. *)
Lemma publish_loop_once_win {Frame : Type} (segs : StdMap.t (@SegmentPair Frame)) time clk
  (Hm : forall k, clk k <= clk (S k)) jps : forall i last,
  last <= clk i ->
  (forall k, (i <= k < i + List.length jps)%nat -> clk k < clk i + 10) ->
  (List.length (snd (fst (publish_loop segs time clk i last jps))) <= 1)%nat.
Proof.
  induction jps as [|[n q] jps IH]; intros i last H1 Hw; simpl; [auto|].
  simpl in Hw.
  assert (Hrec : (List.length (snd (fst (publish_loop segs time clk (S i) last jps))) <= 1)%nat).
  { apply IH.
    - apply (Qle_trans _ _ _ H1 (Hm i)).
    - intros k Hk. pose proof (Hm i). pose proof (Hw k ltac:(lia)). lra. }
  unfold publish_entry.
  destruct (StdMap.find n segs) as [sp|].
  - destruct (publish_loop segs time clk (S i) last jps) as [[l2 w2] t2].
    simpl in *. exact Hrec.
  - destruct (throttle_check (clk i) last 10).
    + assert (Hq := publish_loop_quiet_win segs time clk jps (S i) (clk i)
                      ltac:(intros k Hk; split;
                            [apply clk_mono; [exact Hm|lia]|apply Hw; lia])).
      destruct (publish_loop segs time clk (S i) (clk i) jps) as [[l2 w2] t2].
      simpl in *. injection Hq as _ ->. simpl. lia.
    + destruct (publish_loop segs time clk (S i) last jps) as [[l2 w2] t2].
      simpl in *. exact Hrec.
Qed.

(** Shifting a stamp by the half second of [ros::Duration(0.5)]. *)
Definition half_second_later {Frame : Type} (t : @TransformStamped Frame)
  : TransformStamped :=
  mkTransformStamped (stamp t + (1 # 2)) (frame_id t) (child_frame_id t) (transform t).

Lemma fixed_loop_dynamic {Frame : Type} clk (segs : StdMap.t (@SegmentPair Frame)) :
  forall i, fixed_loop false clk i segs = map half_second_later (fixed_loop true clk i segs).
Proof.
  induction segs as [|[k sp] segs IH]; intros i; simpl; [reflexivity|].
  rewrite IH. reflexivity.
Qed.

Lemma fixed_loop_frames {Frame : Type} b clk (segs : StdMap.t (@SegmentPair Frame)) :
  forall i,
  map (fun t => (frame_id t, child_frame_id t, transform t)) (fixed_loop b clk i segs) =
  map (fun kv => (stripSlash (root (snd kv)), stripSlash (tip (snd kv)),
                  seg_pose (segment (snd kv)) 0)) segs.
Proof.
  induction segs as [|[k sp] segs IH]; intros i; simpl; [reflexivity|].
  rewrite IH. reflexivity.
Qed.

Lemma fixed_loop_in {Frame : Type} b clk (segs : StdMap.t (@SegmentPair Frame)) t :
  forall i, In t (fixed_loop b clk i segs) ->
  exists kv, In kv segs /\ frame_id t = stripSlash (root (snd kv)) /\
             child_frame_id t = stripSlash (tip (snd kv)).
Proof.
  induction segs as [|[k sp] segs IH]; intros i; simpl; [intros []|].
  intros [<-|Hin].
  - exists (k, sp). simpl. auto.
  - destruct (IH (S i) Hin) as (kv & H1 & H2). eauto.
Qed.

Lemma matched_length {Frame : Type} (segs : StdMap.t (@SegmentPair Frame)) time jps :
  List.length (flat_map (matched segs time) jps) =
  List.length (filter (fun e => match StdMap.find (fst e) segs with
                                | Some _ => true | None => false end) jps).
Proof.
  induction jps as [|[n q] jps IH]; simpl; [reflexivity|].
  unfold matched at 1. simpl. destruct (StdMap.find n segs); simpl; congruence.
Qed.

Lemma matched_in {Frame : Type} (segs : StdMap.t (@SegmentPair Frame)) time jps t :
  In t (flat_map (matched segs time) jps) ->
  exists j sp, StdMap.find j segs = Some sp /\ frame_id t = stripSlash (root sp) /\
               child_frame_id t = stripSlash (tip sp).
Proof.
  intros Hin. apply in_flat_map in Hin. destruct Hin as ([n q] & _ & Hin).
  unfold matched in Hin. simpl in Hin.
  destruct (StdMap.find n segs) as [sp|] eqn:E; [|destruct Hin].
  destruct Hin as [<-|[]]. exists n, sp. simpl. auto.
Qed.

Lemma first_edge_some {Frame : Type} p j (es : list (string * @TreeElement Frame)) :
  first_edge p j es <> None <-> exists e, In e es /\ edge_name e = j /\ p e = true.
Proof.
  induction es as [|e es IH]; simpl.
  - split; [congruence|intros (e & [] & _)].
  - destruct (String.eqb_spec j (edge_name e)) as [Heq|Hne]; destruct (p e) eqn:Ep; simpl.
    + split; [intros _; exists e; auto|congruence].
    + rewrite IH. split; intros (e' & H1 & H2 & H3); [exists e'; auto|].
      destruct H1 as [<-|H1]; [congruence|]. exists e'; auto.
    + rewrite IH. split; intros (e' & H1 & H2 & H3); [exists e'; auto|].
      destruct H1 as [<-|H1]; [congruence|]. exists e'; auto.
    + rewrite IH. split; intros (e' & H1 & H2 & H3); [exists e'; auto|].
      destruct H1 as [<-|H1]; [congruence|]. exists e'; auto.
Qed.

(** With the clock at [t], the throttle's last hit after the loop is [t] as
    soon as the loop printed a warning. *)
Lemma publish_loop_last_hit {Frame : Type} (segs : StdMap.t (@SegmentPair Frame)) time clk t
  jps : forall i last,
  (forall k, clk k = t) ->
  snd (fst (publish_loop segs time clk i last jps)) <> [] ->
  fst (fst (publish_loop segs time clk i last jps)) = t.
Proof.
  induction jps as [|[n q] jps IH]; intros i last Hc; simpl; [congruence|].
  unfold publish_entry.
  destruct (StdMap.find n segs) as [sp|].
  - specialize (IH (S i) last Hc).
    destruct (publish_loop segs time clk (S i) last jps) as [[l2 w2] t2].
    simpl in *. exact IH.
  - rewrite Hc. destruct (throttle_check t last 10).
    + specialize (IH (S i) t Hc).
      destruct (publish_loop segs time clk (S i) t jps) as [[l2 w2] t2] eqn:E.
      simpl in *. intros _. destruct w2 as [|w w2]; [|apply IH; congruence].
      assert (Hq := publish_loop_quiet segs time clk t jps (S i) t Hc (Qle_refl t)).
      rewrite E in Hq. simpl in Hq. injection (Hq ltac:(lra)). auto.
    + specialize (IH (S i) last Hc).
      destruct (publish_loop segs time clk (S i) last jps) as [[l2 w2] t2].
      simpl in *. exact IH.
Qed.

(** ** Concrete inputs *)
Module Ex.

Definition seg (name jn : string) (ty : KDL.JointType) : @Segment unit :=
  mkSegment name (mkJoint jn ty) (fun _ => tt).

Definition leaf (name jn : string) (ty : KDL.JointType) : @TreeElement unit :=
  mkTreeElement (seg name jn ty) [].

(** base -> arm (revolute "shoulder") -> hand (fixed "wrist_mount");
    base -> cam (fixed "cam_mount"); base -> odom (floating "odom_joint"). *)
Definition tree : @TreeElement unit :=
  mkTreeElement (seg "/base" "root" KDL.None)
    [mkTreeElement (seg "arm" "shoulder" KDL.RotZ) [leaf "hand" "wrist_mount" KDL.None];
     leaf "cam" "cam_mount" KDL.None;
     leaf "odom" "odom_joint" KDL.None].

Definition model : Model :=
  mkModel [("cam_mount", mkUrdfJoint FIXED None);
           ("odom_joint", mkUrdfJoint FLOATING None);
           ("shoulder", mkUrdfJoint REVOLUTE None);
           ("wrist_mount", mkUrdfJoint FIXED None)].

(** A joint that the model calls floating but that is revolute in the tree. *)
Definition tree_rev_floating : @TreeElement unit :=
  mkTreeElement (seg "base" "root" KDL.None) [leaf "l1" "j" KDL.RotZ].

Definition model_j_floating : Model := mkModel [("j", mkUrdfJoint FLOATING None)].

(** Mimic data: "B" follows "A" with multiplier 2.0 and offset 0.5. *)
Definition mimic_B : MimicMap := [("B", mkJointMimic "A" 2 (1 # 2))].

Definition batch_A : StdMap.t Q := [("A", 1%Q)].

Definition batch_AB : StdMap.t Q := [("A", 1%Q); ("B", 7%Q)].

(** A chain: "B" follows "A", "C" follows "B". *)
Definition mimic_chain : MimicMap :=
  [("B", mkJointMimic "A" 2 (1 # 2)); ("C", mkJointMimic "B" 1 0)].

(** A joint that declares that it mimics itself. *)
Definition model_self_mimic : Model :=
  mkModel [("j", mkUrdfJoint REVOLUTE (Some (mkJointMimic "j" 1 0)))].

(** An initialised publisher for [tree], no other thread holding a lock. *)
Definition state : @RSP unit :=
  mkRSP true model (addChildren model tree empty_tables) [] Unlocked false Unlocked 0.

(** The same publisher while another thread holds the structure lock. *)
Definition state_locked : @RSP unit :=
  mkRSP true model (addChildren model tree empty_tables) [] Unlocked false ExclusiveHeld 0.

(** A clock that reads 100 s. *)
Definition clock100 : nat -> Q := fun _ => 100.

(** A clock that reads 100 s at the first entry and one second more at each
    following one. *)
Definition clock_run : nat -> Q := fun k => 100 + inject_Z (Z.of_nat k).

(** Joint states for two joints that the tree does not have. *)
Definition batch_missing : StdMap.t Q := [("a", 0%Q); ("b", 0%Q)].

(** Joint states for "shoulder" and for an unknown joint. *)
Definition batch_shoulder : StdMap.t Q := [("gripper", 1%Q); ("shoulder", 1 # 2)].

(** A second tree: "shoulder" is now prismatic and "cam_mount" is gone. *)
Definition tree2 : @TreeElement unit :=
  mkTreeElement (seg "/base" "root" KDL.None)
    [leaf "arm" "shoulder" KDL.TransZ; leaf "lidar" "lidar_mount" KDL.None].

(** A publisher built from [model], not yet initialised. *)
Definition fresh : @RSP unit := RobotStatePublisher model false.

End Ex.

(** * Claims *)

(** C1.  The tree walk from empty tables never stores a joint name twice in
    one table.  When the joint names of the tree's edges are pairwise distinct
    (a tree built from a URDF model, whose joint names are unique), each edge
    is classified exactly once: a non-[None] joint is in the moving table
    only, a [None] joint that the body model does not call floating is in the
    fixed table only, a [None] floating joint is in neither, each stored as
    the pair (child segment, parent name, child name). *)
Theorem C1_tables_exclusive {Frame : Type} (model : Model) (t : @TreeElement Frame) :
  let tb := addChildren model t empty_tables in
  NoDup (StdMap.keys (segments_ tb)) /\ NoDup (StdMap.keys (segments_fixed_ tb)) /\
  (NoDup (map edge_name (edges t)) ->
   forall e, In e (edges t) ->
    (edge_type e <> KDL.None ->
       StdMap.find (edge_name e) (segments_ tb) = Some (edge_pair e) /\
       StdMap.find (edge_name e) (segments_fixed_ tb) = None) /\
    (edge_type e = KDL.None -> is_floating model (edge_name e) = false ->
       StdMap.find (edge_name e) (segments_fixed_ tb) = Some (edge_pair e) /\
       StdMap.find (edge_name e) (segments_ tb) = None) /\
    (edge_type e = KDL.None -> is_floating model (edge_name e) = true ->
       StdMap.find (edge_name e) (segments_ tb) = None /\
       StdMap.find (edge_name e) (segments_fixed_ tb) = None)).
Proof.
  cbv zeta. rewrite addChildren_edges.
  destruct (fold_nodup model (edges t) empty_tables (NoDup_nil _) (NoDup_nil _)) as [N1 N2].
  split; [exact N1|split; [exact N2|]].
  intros Hd e Hin.
  rewrite fold_find_moving, fold_find_fixed. simpl.
  rewrite !(first_edge_unique _ _ e Hd Hin).
  unfold moving_edge, fixed_edge.
  split; [|split].
  - intros Hne. destruct (KDL.JointType_beq (edge_type e) KDL.None) eqn:E.
    + apply JointType_beq_spec in E. contradiction.
    + simpl. auto.
  - intros Ht Hf. rewrite Ht, Hf. simpl. auto.
  - intros Ht Hf. rewrite Ht, Hf. simpl. auto.
Qed.

Lemma C1_tables_exclusive_witness :
  NoDup (map edge_name (edges Ex.tree)) /\
  (let tb := addChildren Ex.model Ex.tree empty_tables in
   forall e, In e (edges Ex.tree) ->
    (edge_type e <> KDL.None ->
       StdMap.find (edge_name e) (segments_ tb) = Some (edge_pair e) /\
       StdMap.find (edge_name e) (segments_fixed_ tb) = None) /\
    (edge_type e = KDL.None -> is_floating Ex.model (edge_name e) = false ->
       StdMap.find (edge_name e) (segments_fixed_ tb) = Some (edge_pair e) /\
       StdMap.find (edge_name e) (segments_ tb) = None) /\
    (edge_type e = KDL.None -> is_floating Ex.model (edge_name e) = true ->
       StdMap.find (edge_name e) (segments_ tb) = None /\
       StdMap.find (edge_name e) (segments_fixed_ tb) = None)).
Proof.
  assert (Hd : NoDup (map edge_name (edges Ex.tree))).
  { vm_compute. repeat constructor; simpl; intuition discriminate. }
  split; [exact Hd|]. exact (proj2 (proj2 (C1_tables_exclusive Ex.model Ex.tree)) Hd).
Defined.

(** C2 (corrected).  A joint that the body model consulted by the tree walk
    calls floating, and whose every edge in the tree has KDL type [None], has
    no segment in either table. *)
Theorem C2_floating_excluded {Frame : Type} (model : Model) (t : @TreeElement Frame)
  (j : string) :
  is_floating model j = true ->
  (forall e, In e (edges t) -> edge_name e = j -> edge_type e = KDL.None) ->
  let tb := addChildren model t empty_tables in
  StdMap.find j (segments_ tb) = None /\ StdMap.find j (segments_fixed_ tb) = None.
Proof.
  intros Hf Hty. cbv zeta. rewrite addChildren_edges.
  rewrite fold_find_moving, fold_find_fixed. simpl.
  split; apply first_edge_none; intros e Hin Hn;
    unfold moving_edge, fixed_edge; rewrite (Hty e Hin Hn); simpl;
    [reflexivity|rewrite Hn, Hf; reflexivity].
Qed.

Lemma C2_floating_excluded_witness :
  let tb := addChildren Ex.model Ex.tree empty_tables in
  StdMap.find "odom_joint" (segments_ tb) = None /\
  StdMap.find "odom_joint" (segments_fixed_ tb) = None.
Proof.
  apply (C2_floating_excluded Ex.model Ex.tree "odom_joint").
  - reflexivity.
  - intros e Hin Hn. vm_compute in Hin.
    repeat destruct Hin as [<-|Hin]; vm_compute in Hn |- *; try discriminate; try reflexivity.
    contradiction.
Defined.

(** C2 fails as stated: a joint the body model calls floating but which is
    revolute in the tree is stored in the moving table. *)
Lemma C2_revolute_floating_is_moving :
  StdMap.find "j" (segments_ (addChildren Ex.model_j_floating Ex.tree_rev_floating
                                empty_tables)) <> None.
Proof. vm_compute. discriminate. Qed.

(** C3 (corrected).  When the shared try-lock on the mimic map succeeds,
    the entries are visited in key order and update the batch in place.  An
    entry (D, S, m, b) adds [p * m + b] under D when S has position [p] and D
    has none, in the batch passed in or in the batch as updated by the entries
    visited before; an entry whose source has no position in that updated
    batch contributes nothing; a position already present for D is kept;
    so a chain C <- B <- A is resolved in one pass when B's entry comes before
    C's.  The batch {A: 1.0} with the entry (B, A, 2.0, 0.5) yields
    {A: 1.0, B: 2.5}; when the try-lock fails the batch is left unchanged and
    [false] is returned. *)
Theorem C3_mimic_expansion :
  (forall lk (mm : MimicMap) jp d m p,
     try_lock_shared lk = true ->
     StdMap.find d mm = Some m ->
     StdMap.find (mimic_joint_name m) jp = Some p ->
     StdMap.find d jp = None ->
     getJointMimicPositions lk mm jp = (true, mimic_loop mm jp) /\
     StdMap.find d (mimic_loop mm jp) = Some (p * multiplier m + offset m)) /\
  (forall lk (l1 l2 : MimicMap) jp d m p,
     try_lock_shared lk = true ->
     StdMap.find (mimic_joint_name m) (mimic_loop l1 jp) = Some p ->
     StdMap.find d (mimic_loop l1 jp) = None ->
     StdMap.find d (snd (getJointMimicPositions lk (l1 ++ (d, m) :: l2) jp))
       = Some (p * multiplier m + offset m)) /\
  (forall (l1 l2 : MimicMap) d m jp,
     StdMap.find (mimic_joint_name m) (mimic_loop l1 jp) = None ->
     mimic_loop (l1 ++ (d, m) :: l2) jp = mimic_loop (l1 ++ l2) jp) /\
  (forall lk (mm : MimicMap) jp d v,
     StdMap.find d jp = Some v ->
     StdMap.find d (snd (getJointMimicPositions lk mm jp)) = Some v) /\
  (forall lk (l1 l2 l3 : MimicMap) jp a b c mb mc p,
     try_lock_shared lk = true ->
     mimic_joint_name mb = a -> mimic_joint_name mc = b ->
     StdMap.find a jp = Some p -> StdMap.find b jp = None -> StdMap.find c jp = None ->
     ~ In b (StdMap.keys l1) -> ~ In c (StdMap.keys (l1 ++ (b, mb) :: l2)) ->
     StdMap.find c
       (snd (getJointMimicPositions lk (l1 ++ (b, mb) :: l2 ++ (c, mc) :: l3) jp))
       = Some ((p * multiplier mb + offset mb) * multiplier mc + offset mc)) /\
  getJointMimicPositions Unlocked Ex.mimic_B Ex.batch_A
    = (true, [("A", 1%Q); ("B", 5 # 2)]) /\
  (forall lk mm jp, try_lock_shared lk = false ->
     getJointMimicPositions lk mm jp = (false, jp)).
Proof.
  split; [|split; [|split; [|split; [|split; [|split]]]]].
  - intros lk mm jp d m p Hl Hm Hp Hd. unfold getJointMimicPositions.
    rewrite Hl. split; [reflexivity|]. apply mimic_loop_derived; assumption.
  - intros lk l1 l2 jp d m p Hl Hp Hd. unfold getJointMimicPositions. rewrite Hl.
    apply mimic_loop_inplace; assumption.
  - intros l1 l2 d m jp Hn. rewrite !mimic_loop_app, mimic_loop_cons, Hn. reflexivity.
  - intros lk mm jp d v Hv. unfold getJointMimicPositions.
    destruct (try_lock_shared lk); [apply mimic_loop_keep; exact Hv|exact Hv].
  - intros lk l1 l2 l3 jp a b c mb mc p Hl Ha Hb Hpa Hnb Hnc Hkb Hkc.
    unfold getJointMimicPositions. rewrite Hl. simpl.
    assert (Hpb : StdMap.find b (mimic_loop (l1 ++ (b, mb) :: l2) jp)
                  = Some (p * multiplier mb + offset mb)).
    { apply mimic_loop_inplace.
      - rewrite Ha. apply mimic_loop_keep. exact Hpa.
      - rewrite (mimic_loop_other l1 jp b Hkb). exact Hnb. }
    change ((b, mb) :: l2 ++ (c, mc) :: l3) with (((b, mb) :: l2) ++ (c, mc) :: l3).
    rewrite app_assoc. apply mimic_loop_inplace.
    + rewrite Hb. exact Hpb.
    + rewrite (mimic_loop_other _ jp c Hkc). exact Hnc.
  - vm_compute. reflexivity.
  - intros lk mm jp Hl. unfold getJointMimicPositions. rewrite Hl. reflexivity.
Qed.

Lemma C3_mimic_expansion_witness :
  StdMap.find "A" Ex.batch_A = Some 1%Q /\ StdMap.find "B" Ex.batch_A = None /\
  StdMap.find "C" (snd (getJointMimicPositions Unlocked Ex.mimic_chain Ex.batch_A))
    = Some ((1 * 2 + (1 # 2)) * 1 + 0).
Proof.
  split; [reflexivity|split; [reflexivity|]].
  destruct C3_mimic_expansion as (_ & _ & _ & _ & Hc & _).
  apply (Hc Unlocked [] [] [] Ex.batch_A "A" "B" "C"
            (mkJointMimic "A" 2 (1 # 2)) (mkJointMimic "B" 1 0) 1%Q);
    try reflexivity; simpl; intuition discriminate.
Defined.

(** C3 fails as stated: a position already in the batch for D is kept instead
    of [p * m + b], and in a chain the entry C <- B adds a position although B
    is absent from the batch that was passed in. *)
Lemma C3_kept_and_chained :
  StdMap.find "B" (snd (getJointMimicPositions Unlocked Ex.mimic_B Ex.batch_AB))
    = Some 7%Q /\
  StdMap.find "C" (snd (getJointMimicPositions Unlocked Ex.mimic_chain Ex.batch_A))
    = Some (5 # 2).
Proof. vm_compute. split; reflexivity. Qed.

(** C9 (corrected).  [setJointMimicMap] keys an entry by the name of each joint
    of the model that declares a mimic relation and copies that relation as it
    is: there is no self-reference check, an entry's source equals its key
    exactly when the model's joint of that name declares that it mimics
    itself. *)
Theorem C9_mimic_map_copies (model : Model) (d : string) (m : JointMimic) :
  NoDup (StdMap.keys (joints_ model)) ->
  StdMap.find d (setJointMimicMap model) = Some m <->
  exists j, getJoint model d = Some j /\ mimic j = Some m.
Proof.
  intros Hd. unfold setJointMimicMap, getJoint.
  rewrite (setJointMimicMap_fold _ _ d Hd). simpl.
  destruct (StdMap.find d (joints_ model)) as [j|].
  - split; [intros H; exists j; auto|intros (j' & Hj & Hm); congruence].
  - split; [discriminate|intros (j' & Hj & _); discriminate].
Qed.

Lemma C9_mimic_map_copies_witness :
  NoDup (StdMap.keys (joints_ Ex.model_self_mimic)) /\
  (StdMap.find "j" (setJointMimicMap Ex.model_self_mimic) = Some (mkJointMimic "j" 1 0) <->
   exists j, getJoint Ex.model_self_mimic "j" = Some j /\ mimic j = Some (mkJointMimic "j" 1 0)).
Proof.
  assert (Hd : NoDup (StdMap.keys (joints_ Ex.model_self_mimic))).
  { vm_compute. repeat constructor. intros []. }
  split; [exact Hd|]. apply (C9_mimic_map_copies Ex.model_self_mimic "j" _ Hd).
Defined.

(** C9 fails as stated: a joint declaring that it mimics itself yields an
    entry whose source is its own key. *)
Lemma C9_self_mimic_entry :
  match StdMap.find "j" (setJointMimicMap Ex.model_self_mimic) with
  | Some m => mimic_joint_name m = "j"
  | None => False
  end.
Proof. vm_compute. reflexivity. Qed.

(** C10.  A position already in the batch is never overwritten by the mimic
    expansion, whatever the lock and the mimic map. *)
Theorem C10_mimic_keeps_given (lk : LockState) (mm : MimicMap) (jp : StdMap.t Q)
  (d : string) (v : Q) :
  StdMap.find d jp = Some v ->
  StdMap.find d (snd (getJointMimicPositions lk mm jp)) = Some v.
Proof.
  intros H. unfold getJointMimicPositions.
  destruct (negb (try_lock_shared lk)); simpl; [exact H|].
  apply mimic_loop_keep. exact H.
Qed.

Lemma C10_mimic_keeps_given_witness :
  StdMap.find "B" Ex.batch_AB = Some 7%Q /\
  StdMap.find "B" (snd (getJointMimicPositions Unlocked Ex.mimic_B Ex.batch_AB)) = Some 7%Q.
Proof.
  split; [reflexivity|].
  apply (C10_mimic_keeps_given Unlocked Ex.mimic_B Ex.batch_AB "B" 7%Q). reflexivity.
Defined.

(** C4.  When the try-lock on the structure mutex fails, [publishTransforms]
    and [publishFixedTransforms] return at once: nothing is sent or logged and
    the publisher's state is unchanged. *)
Theorem C4_skip_on_contention {Frame : Type} (st : @RSP Frame) (jp : StdMap.t Q)
  (time : Q) (clk : nat -> Q) (use_tf_static : bool) :
  try_lock (m_swapMutex st) = false ->
  publishTransforms st jp time clk = (st, []) /\
  publishFixedTransforms st use_tf_static clk = (st, []).
Proof.
  intros H. unfold publishTransforms, publishFixedTransforms. rewrite H. auto.
Qed.

Lemma C4_skip_on_contention_witness :
  try_lock (m_swapMutex Ex.state_locked) = false /\
  publishTransforms Ex.state_locked Ex.batch_shoulder 5 Ex.clock100 = (Ex.state_locked, []) /\
  publishFixedTransforms Ex.state_locked true Ex.clock100 = (Ex.state_locked, []).
Proof.
  split; [reflexivity|].
  apply (C4_skip_on_contention Ex.state_locked Ex.batch_shoulder 5 Ex.clock100 true).
  reflexivity.
Defined.

(** C5 (corrected).  After [onURDFSwap] on an initialised publisher the flag
    [urdf_changed_] is set; when the structure lock is free at the next
    [setRobotDescriptionIfChanged], that call sends every fixed segment of the
    rebuilt table to the static broadcaster and clears the flag, and the call
    after it sends nothing and changes nothing. *)
Theorem C5_republish_once {Frame : Type} (st : @RSP Frame) (tree : TreeElement)
  (urdf_ptr : option Model) (clk clk' : nat -> Q) :
  initialized_ st = true ->
  try_lock (m_swapMutex st) = true ->
  let st1 := onURDFSwap st tree urdf_ptr in
  let r1 := setRobotDescriptionIfChanged st1 clk in
  urdf_changed_ st1 = true /\
  snd r1 = [Send Static (fixed_loop true clk 0 (segments_fixed_ (tables_ st1)))] /\
  urdf_changed_ (fst r1) = false /\
  tables_ (fst r1) = tables_ st1 /\
  setRobotDescriptionIfChanged (fst r1) clk' = (fst r1, []).
Proof.
  intros Hi Hl. cbv zeta. unfold onURDFSwap. rewrite Hi. simpl.
  destruct urdf_ptr as [m|]; simpl;
    unfold setRobotDescriptionIfChanged, publishFixedTransforms; simpl;
    rewrite Hl; simpl; repeat split; reflexivity.
Qed.

Lemma C5_republish_once_witness :
  initialized_ Ex.state = true /\ try_lock (m_swapMutex Ex.state) = true /\
  (let st1 := onURDFSwap Ex.state Ex.tree (Some Ex.model) in
   let r1 := setRobotDescriptionIfChanged st1 Ex.clock100 in
   urdf_changed_ st1 = true /\
   snd r1 = [Send Static (fixed_loop true Ex.clock100 0 (segments_fixed_ (tables_ st1)))] /\
   urdf_changed_ (fst r1) = false /\
   tables_ (fst r1) = tables_ st1 /\
   setRobotDescriptionIfChanged (fst r1) Ex.clock100 = (fst r1, [])).
Proof.
  split; [reflexivity|split; [reflexivity|]].
  apply (C5_republish_once Ex.state Ex.tree (Some Ex.model) Ex.clock100 Ex.clock100);
    reflexivity.
Defined.

(** C5 fails as stated: when another thread holds the structure lock at the
    first [setRobotDescriptionIfChanged], the flag is cleared and nothing is
    sent, although the fixed table is not empty. *)
Lemma C5_flag_lost_under_contention :
  let st1 := onURDFSwap Ex.state_locked Ex.tree (Some Ex.model) in
  segments_fixed_ (tables_ st1) <> [] /\
  snd (setRobotDescriptionIfChanged st1 Ex.clock100) = [] /\
  urdf_changed_ (fst (setRobotDescriptionIfChanged st1 Ex.clock100)) = false.
Proof. vm_compute. split; [discriminate|split; reflexivity]. Qed.

(** C6.  With the same fixed table and the same clock readings,
    [publishFixedTransforms] sends the same frame pairs and the same transforms
    (each fixed segment at angle 0) with [false] as with [true], every stamp
    half a second later; [true] goes to the static broadcaster and [false] to
    the dynamic one. *)
Theorem C6_fixed_dynamic_offset {Frame : Type} (st : @RSP Frame) (clk : nat -> Q) :
  try_lock (m_swapMutex st) = true ->
  let tsT := fixed_loop true clk 0 (segments_fixed_ (tables_ st)) in
  publishFixedTransforms st true clk = (st, [Send Static tsT]) /\
  publishFixedTransforms st false clk = (st, [Send Dynamic (map half_second_later tsT)]) /\
  map (fun t => (frame_id t, child_frame_id t, transform t)) tsT =
  map (fun kv => (stripSlash (root (snd kv)), stripSlash (tip (snd kv)),
                  seg_pose (segment (snd kv)) 0)) (segments_fixed_ (tables_ st)).
Proof.
  intros Hl. cbv zeta. unfold publishFixedTransforms. rewrite Hl. simpl.
  rewrite fixed_loop_dynamic, fixed_loop_frames. auto.
Qed.

Lemma C6_fixed_dynamic_offset_witness :
  try_lock (m_swapMutex Ex.state) = true /\
  (let tsT := fixed_loop true Ex.clock100 0 (segments_fixed_ (tables_ Ex.state)) in
   publishFixedTransforms Ex.state true Ex.clock100 = (Ex.state, [Send Static tsT]) /\
   publishFixedTransforms Ex.state false Ex.clock100
     = (Ex.state, [Send Dynamic (map half_second_later tsT)]) /\
   map (fun t => (frame_id t, child_frame_id t, transform t)) tsT =
   map (fun kv => (stripSlash (root (snd kv)), stripSlash (tip (snd kv)),
                   seg_pose (segment (snd kv)) 0)) (segments_fixed_ (tables_ Ex.state))).
Proof.
  split; [reflexivity|]. apply (C6_fixed_dynamic_offset Ex.state Ex.clock100). reflexivity.
Defined.

(** C7 (corrected).  When the structure lock is taken, [publishTransforms]
    ends with one send to the dynamic broadcaster holding, in batch order, one
    transform for each entry whose joint has a moving segment and none for the
    others; before it come only warnings, each about an entry without a
    segment.  The warnings share one throttle for all joints: with a clock
    that never goes back and the last warning at or before the first reading
    of the call, at most one warning is printed while the readings stay within
    10 s of the first one, and none at all while they stay within 10 s of the
    last warning. *)
Theorem C7_publish_moving {Frame : Type} (st : @RSP Frame) (jp : StdMap.t Q) (time : Q)
  (clk : nat -> Q) :
  try_lock (m_swapMutex st) = true ->
  let segs := segments_ (tables_ st) in
  List.length (flat_map (matched segs time) jp) =
  List.length (filter (fun e => match StdMap.find (fst e) segs with
                                | Some _ => true | None => false end) jp) /\
  exists ws,
    snd (publishTransforms st jp time clk) = ws ++ [Send Dynamic (flat_map (matched segs time) jp)] /\
    (forall ev, In ev ws ->
       exists w, ev = Warn w /\ In w (map fst jp) /\ StdMap.find w segs = None) /\
    ((forall k, clk k <= clk (S k)) -> throttle_last_hit st <= clk 0%nat ->
       ((forall k, (k < List.length jp)%nat -> clk k < clk 0%nat + 10) ->
          (List.length ws <= 1)%nat) /\
       ((forall k, (k < List.length jp)%nat -> clk k < throttle_last_hit st + 10) ->
          ws = [])).
Proof.
  intros Hl segs. split; [apply matched_length|].
  unfold publishTransforms. rewrite Hl. simpl. fold segs.
  pose proof (publish_loop_spec segs time clk jp 0 (throttle_last_hit st)) as [H1 H2].
  assert (H3 : (forall k, clk k <= clk (S k)) -> throttle_last_hit st <= clk 0%nat ->
     ((forall k, (k < List.length jp)%nat -> clk k < clk 0%nat + 10) ->
        (List.length (snd (fst (publish_loop segs time clk 0%nat (throttle_last_hit st) jp)))
           <= 1)%nat) /\
     ((forall k, (k < List.length jp)%nat -> clk k < throttle_last_hit st + 10) ->
        snd (fst (publish_loop segs time clk 0%nat (throttle_last_hit st) jp)) = [])).
  { intros Hm H0. split.
    - intros Hw. apply (publish_loop_once_win segs time clk Hm jp 0 _ H0).
      intros k Hk. apply Hw. lia.
    - intros Hw. rewrite (publish_loop_quiet_win segs time clk jp 0 (throttle_last_hit st)).
      + reflexivity.
      + intros k Hk. split; [|apply Hw; lia].
        apply (Qle_trans _ _ _ H0). apply clk_mono; [exact Hm|lia]. }
  destruct (publish_loop segs time clk 0%nat (throttle_last_hit st) jp) as [[l w] tf].
  simpl in *. subst tf. exists w. auto.
Qed.

Lemma C7_publish_moving_witness :
  try_lock (m_swapMutex Ex.state) = true /\
  (forall k, Ex.clock_run k <= Ex.clock_run (S k)) /\
  throttle_last_hit Ex.state <= Ex.clock_run 0%nat /\
  (forall k, (k < List.length Ex.batch_missing)%nat -> Ex.clock_run k < Ex.clock_run 0%nat + 10) /\
  (let segs := segments_ (tables_ Ex.state) in
   List.length (flat_map (matched segs 100) Ex.batch_missing) =
   List.length (filter (fun e => match StdMap.find (fst e) segs with
                                 | Some _ => true | None => false end) Ex.batch_missing) /\
   exists ws,
     snd (publishTransforms Ex.state Ex.batch_missing 100 Ex.clock_run)
       = ws ++ [Send Dynamic (flat_map (matched segs 100) Ex.batch_missing)] /\
     (forall ev, In ev ws ->
        exists w, ev = Warn w /\ In w (map fst Ex.batch_missing) /\ StdMap.find w segs = None) /\
     ((forall k, Ex.clock_run k <= Ex.clock_run (S k)) ->
        throttle_last_hit Ex.state <= Ex.clock_run 0%nat ->
        ((forall k, (k < List.length Ex.batch_missing)%nat ->
            Ex.clock_run k < Ex.clock_run 0%nat + 10) ->
           (List.length ws <= 1)%nat) /\
        ((forall k, (k < List.length Ex.batch_missing)%nat ->
            Ex.clock_run k < throttle_last_hit Ex.state + 10) ->
           ws = []))).
Proof.
  split; [reflexivity|]. split.
  { intros k. unfold Ex.clock_run. rewrite Nat2Z.inj_succ, <- Z.add_1_r, inject_Z_plus.
    change (inject_Z 1) with (1 # 1). lra. }
  split; [vm_compute; discriminate|]. split.
  { intros k Hk. destruct k as [|[|k]]; [vm_compute; reflexivity|vm_compute; reflexivity|].
    simpl in Hk. lia. }
  apply (C7_publish_moving Ex.state Ex.batch_missing 100 Ex.clock_run). reflexivity.
Defined.

(** C7 fails as stated: the throttle is not kept per joint.  Two joints "a" and
    "b" that were never warned about are both missing; only "a" gets a
    warning. *)
Lemma C7_second_missing_joint_unwarned :
  snd (publishTransforms Ex.state Ex.batch_missing 100 Ex.clock100)
    = [Warn "a"; Send Dynamic []].
Proof. vm_compute. reflexivity. Qed.

(** C8.  [stripSlash] removes one leading '/' and leaves other names as they
    are, and every transform sent by [publishTransforms] or
    [publishFixedTransforms] carries the stripped parent and child names of
    its segment. *)
Theorem C8_frames_stripped :
  stripSlash "/base_link" = "base_link" /\
  (forall s, stripSlash (String "/" s) = s) /\
  (forall s, (forall c s', s = String c s' -> c <> "/"%char) -> stripSlash s = s) /\
  (forall Frame (st : @RSP Frame) jp time clk sink tfs t,
     In (Send sink tfs) (snd (publishTransforms st jp time clk)) -> In t tfs ->
     exists j sp, StdMap.find j (segments_ (tables_ st)) = Some sp /\
       frame_id t = stripSlash (root sp) /\ child_frame_id t = stripSlash (tip sp)) /\
  (forall Frame (st : @RSP Frame) b clk sink tfs t,
     In (Send sink tfs) (snd (publishFixedTransforms st b clk)) -> In t tfs ->
     exists kv, In kv (segments_fixed_ (tables_ st)) /\
       frame_id t = stripSlash (root (snd kv)) /\ child_frame_id t = stripSlash (tip (snd kv))).
Proof.
  split; [reflexivity|split; [reflexivity|split; [|split]]].
  - intros [|c s] H; [reflexivity|].
    specialize (H c s eq_refl).
    destruct c as [[] [] [] [] [] [] [] []]; solve [reflexivity|contradiction].
  - intros Frame st jp time clk sink tfs t Hs Ht.
    unfold publishTransforms in Hs. destruct (negb (try_lock (m_swapMutex st))); [destruct Hs|].
    pose proof (publish_loop_spec (segments_ (tables_ st)) time clk jp 0
                  (throttle_last_hit st)) as [H1 H2].
    destruct (publish_loop _ _ _ _ _ _) as [[l w] tf]. simpl in *.
    apply in_app_or in Hs. destruct Hs as [Hs|[Hs|[]]].
    + destruct (H2 _ Hs) as (x & Hx & _). discriminate.
    + injection Hs as <- <-. subst tf. apply (matched_in _ time jp t Ht).
  - intros Frame st b clk sink tfs t Hs Ht.
    unfold publishFixedTransforms in Hs. destruct (negb (try_lock (m_swapMutex st))); [destruct Hs|].
    destruct Hs as [Hs|[]]. injection Hs as <- <-.
    apply (fixed_loop_in b clk _ t 0 Ht).
Qed.

(** * Further properties of the code *)

(** X1.  The tree walk from empty maps puts a joint name in the moving map
    exactly when some edge of the tree carries a joint of that name whose KDL
    type is not [None], and in the fixed map exactly when some edge carries a
    [None] joint of that name that the model does not call floating. *)
Theorem X1_addChildren_keys {Frame : Type} (model : Model) (t : @TreeElement Frame)
  (j : string) :
  let tb := addChildren model t empty_tables in
  (In j (StdMap.keys (segments_ tb)) <->
   exists e, In e (edges t) /\ edge_name e = j /\ edge_type e <> KDL.None) /\
  (In j (StdMap.keys (segments_fixed_ tb)) <->
   exists e, In e (edges t) /\ edge_name e = j /\ edge_type e = KDL.None /\
             is_floating model j = false).
Proof.
  cbv zeta. rewrite !StdMap.find_in_keys, addChildren_edges,
    fold_find_moving, fold_find_fixed. simpl.
  rewrite !first_edge_some. unfold moving_edge, fixed_edge. split.
  - split; intros (e & H1 & H2 & H3); exists e; repeat split; auto.
    + intros Ht. rewrite Ht in H3. discriminate.
    + destruct (KDL.JointType_beq (edge_type e) KDL.None) eqn:E; [|reflexivity].
      apply JointType_beq_spec in E. contradiction.
  - split; intros (e & H1 & H2 & H3); exists e.
    + apply andb_true_iff in H3. destruct H3 as [H3 H4].
      apply JointType_beq_spec in H3. apply negb_true_iff in H4. subst j. auto.
    + destruct H3 as [H3 H4]. subst j. rewrite H3, H4. auto.
Qed.

(** X3.  A second successful [init] does not clear the maps: a joint that
    already has a segment keeps that segment. *)
Theorem X3_reinit_keeps_segments {Frame : Type} (st : @RSP Frame) (t : @TreeElement Frame)
  (j : string) (sp : SegmentPair) :
  (StdMap.find j (segments_ (tables_ st)) = Some sp ->
   StdMap.find j (segments_ (tables_ (fst (init st (Some t))))) = Some sp) /\
  (StdMap.find j (segments_fixed_ (tables_ st)) = Some sp ->
   StdMap.find j (segments_fixed_ (tables_ (fst (init st (Some t))))) = Some sp).
Proof.
  simpl. rewrite addChildren_edges. split; intros H;
    [rewrite fold_find_moving, H | rewrite fold_find_fixed, H]; reflexivity.
Qed.

Lemma X3_reinit_keeps_segments_witness :
  let st := fst (init Ex.fresh (Some Ex.tree)) in
  let sp := mkSegmentPair (Ex.seg "arm" "shoulder" KDL.RotZ) "/base" "arm" in
  StdMap.find "shoulder" (segments_ (tables_ st)) = Some sp /\
  StdMap.find "shoulder" (segments_ (tables_ (fst (init st (Some Ex.tree2))))) = Some sp.
Proof.
  cbv zeta. assert (H : StdMap.find "shoulder" (segments_ (tables_ (fst (init Ex.fresh (Some Ex.tree)))))
    = Some (mkSegmentPair (Ex.seg "arm" "shoulder" KDL.RotZ) "/base" "arm")) by reflexivity.
  split; [exact H|].
  apply (X3_reinit_keeps_segments (fst (init Ex.fresh (Some Ex.tree))) Ex.tree2 "shoulder" _).
  exact H.
Defined.



(** X5.  The mimic map never holds a key twice; when the model's joint names
    are distinct, its keys are exactly the joints that declare a mimic
    relation. *)
Theorem X5_mimic_map_keys (model : Model) (d : string) :
  NoDup (StdMap.keys (joints_ model)) ->
  NoDup (StdMap.keys (setJointMimicMap model)) /\
  (In d (StdMap.keys (setJointMimicMap model)) <->
   exists j, getJoint model d = Some j /\ mimic j <> None).
Proof.
  intros Hd. split.
  - unfold setJointMimicMap.
    cut (NoDup (StdMap.keys (@StdMap.empty JointMimic))); [|constructor].
    generalize (@StdMap.empty JointMimic). clear Hd.
    induction (joints_ model) as [|[k j] l IH]; intros acc Hacc; simpl; [exact Hacc|].
    apply IH. destruct (mimic j); [apply StdMap.nodup_insert|]; exact Hacc.
  - rewrite StdMap.find_in_keys. unfold setJointMimicMap, getJoint.
    rewrite (setJointMimicMap_fold _ _ d Hd). simpl.
    destruct (StdMap.find d (joints_ model)) as [j|].
    + split; [intros H; exists j; auto|intros (j' & Hj & Hm); congruence].
    + split; [congruence|intros (j' & Hj & _); discriminate].
Qed.

Lemma X5_mimic_map_keys_witness :
  NoDup (StdMap.keys (joints_ Ex.model_self_mimic)) /\
  NoDup (StdMap.keys (setJointMimicMap Ex.model_self_mimic)) /\
  (In "j" (StdMap.keys (setJointMimicMap Ex.model_self_mimic)) <->
   exists j, getJoint Ex.model_self_mimic "j" = Some j /\ mimic j <> None).
Proof.
  assert (Hd : NoDup (StdMap.keys (joints_ Ex.model_self_mimic))).
  { vm_compute. repeat constructor. intros []. }
  split; [exact Hd|]. apply (X5_mimic_map_keys Ex.model_self_mimic "j" Hd).
Defined.

(** X6.  Mimic expansion only adds positions under dependent-joint names: the
    position of a joint that is not a key of the mimic map is the same after
    expansion as before, present or absent. *)
Theorem X6_mimic_adds_only_dependents (lk : LockState) (mm : MimicMap) (jp : StdMap.t Q)
  (x : string) :
  ~ In x (StdMap.keys mm) ->
  StdMap.find x (snd (getJointMimicPositions lk mm jp)) = StdMap.find x jp.
Proof.
  intros H. unfold getJointMimicPositions.
  destruct (negb (try_lock_shared lk)); simpl; [reflexivity|].
  apply mimic_loop_other. exact H.
Qed.

Lemma X6_mimic_adds_only_dependents_witness :
  ~ In "C" (StdMap.keys Ex.mimic_B) /\
  StdMap.find "C" (snd (getJointMimicPositions Unlocked Ex.mimic_B Ex.batch_A))
    = StdMap.find "C" Ex.batch_A.
Proof.
  assert (H : ~ In "C" (StdMap.keys Ex.mimic_B)).
  { vm_compute. intros [H|[]]. discriminate. }
  split; [exact H|]. apply (X6_mimic_adds_only_dependents Unlocked Ex.mimic_B Ex.batch_A "C" H).
Defined.

(** X8.  Every transform that [publishTransforms] sends carries the [time]
    argument as its stamp and the pose of a moving segment at the position
    given for that segment's joint in the batch. *)
Theorem X8_moving_stamp_and_pose {Frame : Type} (st : @RSP Frame) (jp : StdMap.t Q)
  (time : Q) (clk : nat -> Q) (sink : Sink) (tfs : list TransformStamped)
  (t : TransformStamped) :
  In (Send sink tfs) (snd (publishTransforms st jp time clk)) -> In t tfs ->
  stamp t = time /\
  exists n q sp, In (n, q) jp /\ StdMap.find n (segments_ (tables_ st)) = Some sp /\
                 transform t = seg_pose (segment sp) q.
Proof.
  intros Hs Ht. unfold publishTransforms in Hs.
  destruct (negb (try_lock (m_swapMutex st))); [destruct Hs|].
  pose proof (publish_loop_spec (segments_ (tables_ st)) time clk jp 0
                (throttle_last_hit st)) as [H1 H2].
  destruct (publish_loop _ _ _ _ _ _) as [[l w] tf]. simpl in *.
  apply in_app_or in Hs. destruct Hs as [Hs|[Hs|[]]].
  - destruct (H2 _ Hs) as (x & Hx & _). discriminate.
  - injection Hs as <- <-. subst tf.
    apply in_flat_map in Ht. destruct Ht as ([n q] & Hin & Ht).
    unfold matched in Ht. simpl in Ht.
    destruct (StdMap.find n _) as [sp|] eqn:E; [|destruct Ht].
    destruct Ht as [<-|[]]. split; [reflexivity|]. exists n, q, sp. auto.
Qed.

Lemma X8_moving_stamp_and_pose_witness :
  let tf := mkTransformStamped 5 "base" "arm" tt in
  In (Send Dynamic [tf]) (snd (publishTransforms Ex.state Ex.batch_shoulder 5 Ex.clock100)) /\
  In tf [tf] /\
  (stamp tf = 5 /\
   exists n q sp, In (n, q) Ex.batch_shoulder /\
     StdMap.find n (segments_ (tables_ Ex.state)) = Some sp /\
     transform tf = seg_pose (segment sp) q).
Proof.
  cbv zeta.
  assert (Hs : In (Send Dynamic [mkTransformStamped 5 "base" "arm" tt])
                 (snd (publishTransforms Ex.state Ex.batch_shoulder 5 Ex.clock100))).
  { vm_compute. right. left. reflexivity. }
  split; [exact Hs|split; [left; reflexivity|]].
  apply (X8_moving_stamp_and_pose Ex.state Ex.batch_shoulder 5 Ex.clock100 Dynamic _ _ Hs).
  left. reflexivity.
Defined.



(** X12.  The throttle spans calls: when a call of [publishTransforms] with
    the clock at [t] prints a warning, a following call whose clock readings
    all lie in [[t, t + 10)] prints no warning, whatever its batch. *)
Theorem X12_throttle_across_calls {Frame : Type} (st : @RSP Frame) (jp jp' : StdMap.t Q)
  (time time' t : Q) (clk clk' : nat -> Q) (w : string) :
  (forall k, clk k = t) ->
  (forall k, (k < List.length jp')%nat -> t <= clk' k /\ clk' k < t + 10) ->
  In (Warn w) (snd (publishTransforms st jp time clk)) ->
  forall w', ~ In (Warn w')
    (snd (publishTransforms (fst (publishTransforms st jp time clk)) jp' time' clk')).
Proof.
  intros Hc Hc' Hw w'.
  unfold publishTransforms in *.
  destruct (negb (try_lock (m_swapMutex st))) eqn:Hl; [destruct Hw|].
  pose proof (publish_loop_last_hit (segments_ (tables_ st)) time clk t jp 0
                (throttle_last_hit st) Hc) as Hlast.
  destruct (publish_loop _ _ _ 0 (throttle_last_hit st) jp) as [[l ws] tf]. simpl in *.
  rewrite Hl.
  assert (Hl' : l = t).
  { apply Hlast. intros ->. simpl in Hw. destruct Hw as [Hw|[]]. discriminate. }
  subst l.
  pose proof (publish_loop_quiet_win (segments_ (tables_ st)) time' clk' jp' 0 t
                ltac:(intros k Hk; apply Hc'; lia)) as Hq.
  destruct (publish_loop _ _ _ 0 t jp') as [[l2 ws2] tf2]. simpl in *.
  injection Hq as -> ->. simpl. intros [H|[]]. discriminate.
Qed.

Lemma X12_throttle_across_calls_witness :
  (forall k, Ex.clock100 k = 100) /\
  (forall k, (k < List.length Ex.batch_missing)%nat ->
     100 <= Ex.clock_run (S k) /\ Ex.clock_run (S k) < 100 + 10) /\
  In (Warn "a") (snd (publishTransforms Ex.state Ex.batch_missing 100 Ex.clock100)) /\
  ~ In (Warn "b")
    (snd (publishTransforms (fst (publishTransforms Ex.state Ex.batch_missing 100 Ex.clock100))
            Ex.batch_missing 105 (fun k => Ex.clock_run (S k)))).
Proof.
  assert (Hc : forall k, Ex.clock100 k = 100) by reflexivity.
  assert (Hc' : forall k, (k < List.length Ex.batch_missing)%nat ->
            100 <= Ex.clock_run (S k) /\ Ex.clock_run (S k) < 100 + 10).
  { intros k Hk. destruct k as [|[|k]]; [vm_compute; split; [discriminate|reflexivity]..|].
    simpl in Hk. lia. }
  assert (Hw : In (Warn "a") (snd (publishTransforms Ex.state Ex.batch_missing 100 Ex.clock100)))
    by (vm_compute; left; reflexivity).
  split; [exact Hc|split; [exact Hc'|split; [exact Hw|]]].
  apply (X12_throttle_across_calls Ex.state Ex.batch_missing Ex.batch_missing 100 105 100
           Ex.clock100 (fun k => Ex.clock_run (S k)) "a" Hc Hc' Hw "b").
Defined.
